(** * ElGamal signature utilities (src/elgamal.js), shallow embedding

    JavaScript numbers are modelled as [Z]; the inputs are assumed to stay in
    the range where the double arithmetic of the source is exact.
    - [a % b] (sign of the dividend) is [Z.rem a b];
    - [Math.floor(a / b)] is [Z.div a b] (floor division);
    - [Math.floor(Math.sqrt(p) + 1)] is [Z.sqrt p + 1];
    - a JS array used as a sparse map ([value[k] = i], [value[k] > 0] with
      [undefined > 0] false) is a function [Z -> option Z];
    - a [while] loop that may run forever is a fuel-indexed function returning
      [option]: [None] means the loop has not stopped within the fuel. *)

From Stdlib Require Import ZArith Znumtheory Zcong Lia.
From Stdlib Require Import Zmod Zstar.
Open Scope Z_scope.

(** ** fastModularExponentiation (lines 8-26) *)

(** One iteration of the [while (exponent > 0)] loop per binary digit of
    the exponent, least significant first: the digit is the low bit, the
    exponent is then halved; [result] absorbs [x] on a 1 bit and [x] is
    squared each round.  On the last digit ([xH]) the squaring of [x] is
    dead code and omitted. *)
Fixpoint fme_loop (exponent : positive) (result x modulo : Z) : Z :=
  match exponent with
  | xH => Z.rem (result * x) modulo
  | xO e => fme_loop e result (Z.rem (x * x) modulo) modulo
  | xI e => fme_loop e (Z.rem (result * x) modulo) (Z.rem (x * x) modulo) modulo
  end.

Definition fastModularExponentiation (base exponent modulo : Z) : Z :=
  let base := Z.rem base modulo in
  let result := 1 in
  let x := base in
  match exponent with
  | Zpos e => fme_loop e result x modulo
  | _ => result  (* the loop body never runs *)
  end.

(** ** verify (lines 38-47) *)

Definition verify (alpha beta modulo m signature1 signature2 : Z) : bool :=
  let v1 := fastModularExponentiation alpha m modulo in
  let v2 := fastModularExponentiation
              (fastModularExponentiation beta signature1 modulo *
               fastModularExponentiation signature1 signature2 modulo)
              1 modulo in
  Z.eqb v1 v2.

(** ** discreteLogarithm (lines 56-75) *)

(** The array [value]: a sparse map from residues to indices. *)
Definition table := Z -> option Z.

Definition table_empty : table := fun _ => None.

Definition table_set (t : table) (k v : Z) : table :=
  fun k' => if Z.eqb k' k then Some v else t k'.

(** [n = Math.floor(Math.sqrt(modulo) + 1)] *)
Definition dl_n (modulo : Z) : Z := Z.sqrt modulo + 1.

(** The giant-step key of index [i]. *)
Definition giant_key (alpha n modulo i : Z) : Z :=
  fastModularExponentiation alpha (i * n) modulo.

(** [for (let i = k; i >= 1; i--) value[giant_key i] = i]: the write of
    index [k] happens first, the write of index [1] last. *)
Fixpoint build_table (k : nat) (alpha n modulo : Z) (t : table) : table :=
  match k with
  | O => t
  | S k' =>
      build_table k' alpha n modulo
        (table_set t (giant_key alpha n modulo (Z.of_nat k)) (Z.of_nat k))
  end.

Definition giant_table (alpha modulo : Z) : table :=
  let n := dl_n modulo in
  build_table (Z.to_nat n) alpha n modulo table_empty.

(** The baby-step value [curr] of index [i]. *)
Definition baby_key (alpha beta modulo i : Z) : Z :=
  Z.rem (fastModularExponentiation alpha i modulo * beta) modulo.

(** [for (let i = start; ...; i++)], [cnt] iterations left. *)
Fixpoint baby_scan (cnt : nat) (i : Z) (t : table) (alpha beta n modulo : Z)
  : Z :=
  match cnt with
  | O => -1
  | S c =>
      let curr := baby_key alpha beta modulo i in
      match t curr with
      | Some v =>
          if 0 <? v then
            let ans := v * n - i in
            if ans <? modulo then ans
            else baby_scan c (i + 1) t alpha beta n modulo
          else baby_scan c (i + 1) t alpha beta n modulo
      | None => baby_scan c (i + 1) t alpha beta n modulo
      end
  end.

Definition discreteLogarithm (alpha beta modulo : Z) : Z :=
  let n := dl_n modulo in
  let value := giant_table alpha modulo in
  baby_scan (Z.to_nat n) 0 value alpha beta n modulo.

(** ** negativeModulo (lines 83-92) *)

(** [for (; i < modulo; i--) if (modulo * i < negativeNumber) break],
    returning the final [i]. *)
Fixpoint nm_loop (fuel : nat) (i negativeNumber modulo : Z) : option Z :=
  match fuel with
  | O => None
  | S f =>
      if i <? modulo then
        if modulo * i <? negativeNumber then Some i
        else nm_loop f (i - 1) negativeNumber modulo
      else Some i
  end.

(** The fuel [|negativeNumber| + 2] covers every run with [modulo >= 1]. *)
Definition negativeModulo (negativeNumber modulo : Z) : option Z :=
  match nm_loop (Z.to_nat (Z.abs negativeNumber) + 2) (-1) negativeNumber modulo
  with
  | Some i => Some (-1 * (modulo * i) + negativeNumber)
  | None => None
  end.

(** ** inverseModulo (lines 100-109) *)

(** [for (let i = start; ...; i++) if ((a * i) % modulo === 1) return i],
    [cnt] iterations left; [return 1] after the loop. *)
Fixpoint inv_loop (cnt : nat) (i a modulo : Z) : Z :=
  match cnt with
  | O => 1
  | S c => if Z.rem (a * i) modulo =? 1 then i else inv_loop c (i + 1) a modulo
  end.

Definition inverseModulo (a modulo : Z) : Z :=
  let a := Z.rem a modulo in
  inv_loop (Z.to_nat modulo) 0 a modulo.

(** ** gcd (lines 117-127) *)

Fixpoint gcd_loop (fuel : nat) (number1 number2 : Z) : option Z :=
  match fuel with
  | O => None
  | S f =>
      if negb (Z.eqb number1 number2) then
        if number2 <? number1 then gcd_loop f (number1 - number2) number2
        else gcd_loop f number1 (number2 - number1)
      else Some number1
  end.

(** The fuel [|a| + |b| + 1] covers every run of the loop that stops:
    each subtraction of positive numbers lowers [a + b]. *)
Definition gcd (number1 number2 : Z) : option Z :=
  gcd_loop (Z.to_nat (Z.abs number1 + Z.abs number2) + 1) number1 number2.

(** ** calculateK (lines 139-164) *)

Definition calculateK_aux (modulo m signature1 secretKey : Z) : option Z :=
  if (m - secretKey * signature1) <? 0 then
    negativeModulo (m - secretKey * signature1) (modulo - 1)
  else Some (fastModularExponentiation (m - secretKey * signature1) 1 (modulo - 1)).

(** [for (let i = start; i <= c; i++) { k = kt + i * modulo2;
    if (alpha^k mod modulo === signature1) break }], [cnt] iterations
    left; returns the value of [k] after the loop. *)
Fixpoint k_search (cnt : nat) (i k kt modulo2 alpha modulo signature1 : Z) : Z :=
  match cnt with
  | O => k
  | S c =>
      let k := kt + i * modulo2 in
      if fastModularExponentiation alpha k modulo =? signature1 then k
      else k_search c (i + 1) k kt modulo2 alpha modulo signature1
  end.

(** The base solution [kt] of the non-coprime branch. *)
Definition calculateK_kt (modulo signature2 aux c : Z) : Z :=
  let modulo2 := (modulo - 1) / c in
  let signature2Inverse := inverseModulo (signature2 / c) modulo2 in
  fastModularExponentiation ((aux / c) * signature2Inverse) 1 modulo2.

Definition calculateK (alpha beta modulo m signature1 signature2 secretKey : Z)
  : option Z :=
  let k := 0 in
  match calculateK_aux modulo m signature1 secretKey with
  | None => None
  | Some aux =>
      match gcd signature2 (modulo - 1) with
      | None => None
      | Some c =>
          if c =? 1 then
            let res := inverseModulo signature2 (modulo - 1)
                       * (m - (secretKey * signature1)) in
            Some (fastModularExponentiation res 1 (modulo - 1))
          else
            let modulo2 := (modulo - 1) / c in
            let kt := calculateK_kt modulo signature2 aux c in
            Some (k_search (Z.to_nat c) 1 k kt modulo2 alpha modulo signature1)
      end
  end.

(** ** run (lines 175-184) *)

(** The object [{ isSuccess, secretKey, k }] returned by [run]; [k] is
    [None] when [calculateK] does not stop.  The [console.log] calls only
    print these three values and are left out. *)
Record run_result := {
  isSuccess : bool;
  secretKey : Z;
  k : option Z
}.

Definition run (alpha beta p m signature1 signature2 : Z) : run_result :=
  let isSuccess := verify alpha beta p m signature1 signature2 in
  let secretKey := discreteLogarithm alpha beta p in
  let k := calculateK alpha beta p m signature1 signature2 secretKey in
  {| isSuccess := isSuccess; secretKey := secretKey; k := k |}.

(** ** Checking ranges of small numbers *)

(** [f] holds on the [cnt] integers from [lo]. *)
Fixpoint range_all (f : Z -> bool) (lo : Z) (cnt : nat) : bool :=
  match cnt with
  | O => true
  | S c => f lo && range_all f (lo + 1) c
  end.

Example dl_11 : discreteLogarithm 2 7 11 = 7. Proof. reflexivity. Qed.
Example nonce_23 : calculateK 5 8 23 (Z.modulo (6*10 + 3*7) 22) 10 7 6 = Some (-19).
Proof. reflexivity. Qed.

(** ** Arithmetic facts about the embedding *)

Lemma rem_nonneg_mod (a m : Z) : 0 <= a -> 0 < m -> Z.rem a m = a mod m.
Proof. intros; apply Z.rem_mod_nonneg; lia. Qed.

Lemma mod_mul_pow (r y m e : Z) :
  0 < m -> 0 <= e -> (r * (y mod m) ^ e) mod m = (r * y ^ e) mod m.
Proof.
  intros Hm He.
  rewrite (Z.mul_mod r ((y mod m) ^ e)), (Z.mul_mod r (y ^ e)) by lia.
  rewrite Z.mod_pow_l; reflexivity.
Qed.

Lemma fme_loop_mod (e : positive) : forall r x m,
  0 <= r -> 0 <= x -> 0 < m -> fme_loop e r x m = (r * x ^ Zpos e) mod m.
Proof.
  induction e as [e IH | e IH | ]; intros r x m Hr Hx Hm; cbn [fme_loop].
  - rewrite IH by (try apply Z.rem_nonneg; try apply Z.mod_pos_bound; nia).
    rewrite !rem_nonneg_mod by nia.
    rewrite mod_mul_pow by lia.
    rewrite Zmult_mod_idemp_l.
    replace (Zpos e~1) with (1 + 2 * Zpos e) by lia.
    rewrite Z.pow_add_r, Z.pow_mul_r, Z.pow_1_r by lia.
    f_equal; rewrite Z.pow_2_r; ring.
  - rewrite IH by (try apply Z.rem_nonneg; nia).
    rewrite rem_nonneg_mod by nia.
    rewrite mod_mul_pow by lia.
    replace (Zpos e~0) with (2 * Zpos e) by lia.
    rewrite Z.pow_mul_r, Z.pow_2_r by lia; reflexivity.
  - rewrite rem_nonneg_mod by nia; rewrite Z.pow_1_r; reflexivity.
Qed.

(** For a positive exponent the loop computes [base ^ exponent mod modulo]. *)
Lemma fme_mod (b e m : Z) :
  0 <= b -> 0 < e -> 0 < m -> fastModularExponentiation b e m = b ^ e mod m.
Proof.
  intros Hb He Hm; unfold fastModularExponentiation.
  destruct e as [| e | e]; try lia.
  rewrite fme_loop_mod by (try apply Z.rem_nonneg; lia).
  rewrite rem_nonneg_mod by lia.
  rewrite Z.mul_1_l, Z.mod_pow_l; reflexivity.
Qed.

(** With a modulus of at least 2 the zero exponent agrees as well. *)
Lemma fme_mod0 (b e m : Z) :
  0 <= b -> 0 <= e -> 1 < m -> fastModularExponentiation b e m = b ^ e mod m.
Proof.
  intros Hb He Hm.
  destruct (Z.eq_dec e 0) as [-> | He'].
  - rewrite Z.pow_0_r, Z.mod_small by lia; reflexivity.
  - apply fme_mod; lia.
Qed.

Lemma fme_range (b e m : Z) :
  0 <= b -> 0 <= e -> 1 < m -> 0 <= fastModularExponentiation b e m < m.
Proof. intros; rewrite fme_mod0 by lia; apply Z.mod_pos_bound; lia. Qed.

Lemma fme_exp0 (b m : Z) : fastModularExponentiation b 0 m = 1.
Proof. reflexivity. Qed.

(** ** Claims about verify and the modular helpers *)

(** C1 (amended): for non-negative [alpha] and [beta] (with [p >= 2] and
    non-negative exponents), [verify] holds exactly when
    [alpha^m mod p = ((beta^s1 mod p) * (s1^s2 mod p)) mod p]; the product is
    reduced once, by the exponent-1 call. *)
Theorem verify_iff_equation (alpha beta p m s1 s2 : Z)
  (Halpha : 0 <= alpha) (Hbeta : 0 <= beta) (Hp : 2 <= p)
  (Hm : 0 <= m) (Hs1 : 0 <= s1) (Hs2 : 0 <= s2) :
  verify alpha beta p m s1 s2 = true <->
  alpha ^ m mod p = ((beta ^ s1 mod p) * (s1 ^ s2 mod p)) mod p.
Proof.
  unfold verify.
  rewrite (fme_mod0 alpha), (fme_mod0 beta), (fme_mod0 s1) by lia.
  rewrite fme_mod by
    (try apply Z.mul_nonneg_nonneg; try apply Z.mod_pos_bound; lia).
  rewrite Z.pow_1_r; apply Z.eqb_eq.
Qed.

Lemma verify_iff_equation_witness :
  (0 <= 5 /\ 0 <= 8 /\ 2 <= 23 /\ 0 <= 15 /\ 0 <= 10 /\ 0 <= 7) /\
  (verify 5 8 23 15 10 7 = true <->
   5 ^ 15 mod 23 = ((8 ^ 10 mod 23) * (10 ^ 7 mod 23)) mod 23).
Proof.
  split; [lia | apply (verify_iff_equation 5 8 23 15 10 7); lia].
Defined.

(** C1 counterexample: with a negative [alpha] the source's [%] keeps the
    sign, so [v1 = -1] while [(-1)^1 mod 3 = 2] matches the right side. *)
Lemma verify_negative_alpha_cex :
  ~ (verify (-1) 2 3 1 1 0 = true <->
     (-1) ^ 1 mod 3 = ((2 ^ 1 mod 3) * (1 ^ 0 mod 3)) mod 3).
Proof. vm_compute; intros [_ H]; discriminate (H eq_refl). Qed.

(** C6 (code bug): the zero exponent leaves [result = 1] unreduced, so with
    modulus 1 the result is 1, not [5^0 mod 1 = 0], and lies outside
    [[0, 1)]. *)
Theorem fme_exp0_mod1 :
  fastModularExponentiation 5 0 1 = 1 /\ 5 ^ 0 mod 1 = 0.
Proof. split; reflexivity. Qed.

(** C7 (code bug): the strict [modulo * i < negativeNumber] test overshoots
    exact negative multiples by one step: [negativeModulo (-6) 3] is 3,
    not the representative 0. *)
Theorem negativeModulo_exact_multiple :
  negativeModulo (-6) 3 = Some 3 /\ (-6) mod 3 = 0.
Proof. split; reflexivity. Qed.

(** C3 (code bug): in the coprime branch the raw [m - x*s1] is used instead
    of [aux].  On the nonce example of the spec ([p = 23], [alpha = 5],
    [x = 6], [k = 3], [s1 = 10], [s2 = 7], [m = 15]) the result is [-19],
    while [(inverseModulo 7 22 * aux) mod 22 = 3] with [aux = 21]. *)
Theorem calculateK_coprime_negative :
  calculateK 5 8 23 15 10 7 6 = Some (-19) /\
  gcd 7 22 = Some 1 /\ Z.gcd 7 22 = 1 /\
  calculateK_aux 23 15 10 6 = Some 21 /\
  (inverseModulo 7 22 * 21) mod 22 = 3.
Proof. vm_compute; repeat split. Qed.

(** ** inverseModulo and gcd *)

Lemma inv_loop_found (cnt : nat) : forall i a m j,
  i <= j < i + Z.of_nat cnt -> Z.rem (a * j) m = 1 ->
  i <= inv_loop cnt i a m < i + Z.of_nat cnt /\
  Z.rem (a * inv_loop cnt i a m) m = 1.
Proof.
  induction cnt as [| cnt IH]; intros i a m j Hj Hrem; cbn [inv_loop]; [lia |].
  destruct (Z.rem (a * i) m =? 1) eqn:E.
  - apply Z.eqb_eq in E; split; [lia | exact E].
  - apply Z.eqb_neq in E.
    assert (j <> i) by (intros ->; contradiction).
    destruct (IH (i + 1) a m j) as [H1 H2]; [lia | exact Hrem |].
    split; [lia | exact H2].
Qed.

Lemma inv_loop_none (cnt : nat) : forall i a m,
  (forall j, i <= j < i + Z.of_nat cnt -> Z.rem (a * j) m <> 1) ->
  inv_loop cnt i a m = 1.
Proof.
  induction cnt as [| cnt IH]; intros i a m H; cbn [inv_loop]; [reflexivity |].
  destruct (Z.rem (a * i) m =? 1) eqn:E.
  - apply Z.eqb_eq in E; exfalso; apply (H i); [lia | exact E].
  - apply IH; intros j Hj; apply H; lia.
Qed.

Lemma mod_inverse_coprime (a j m : Z) :
  0 < m -> (a * j) mod m = 1 -> Z.gcd a m = 1.
Proof.
  intros Hm H.
  apply (Z.Bezout_coprime_iff a m).
  exists j, (- ((a * j) / m)).
  pose proof (Z.div_mod (a * j) m ltac:(lia)) as Hd; rewrite H in Hd; lia.
Qed.

Lemma gcd_loop_pos (f : nat) : forall a b,
  0 < a -> 0 < b -> a + b < Z.of_nat f -> gcd_loop f a b = Some (Z.gcd a b).
Proof.
  induction f as [| f IH]; intros a b Ha Hb Hf; [lia |]; cbn [gcd_loop].
  destruct (Z.eqb_spec a b) as [<- | Hne]; cbn [negb].
  - rewrite Z.gcd_diag, Z.abs_eq by lia; reflexivity.
  - destruct (Z.ltb_spec b a).
    + rewrite IH by lia.
      rewrite Z.gcd_comm, Z.gcd_sub_diag_r, Z.gcd_comm; reflexivity.
    + rewrite IH by lia; rewrite Z.gcd_sub_diag_r; reflexivity.
Qed.

Lemma gcd_pos (a b : Z) : 0 < a -> 0 < b -> gcd a b = Some (Z.gcd a b).
Proof. intros; unfold gcd; apply gcd_loop_pos; lia. Qed.

(** With one operand zero and the other positive the loop subtracts zero
    forever. *)
Lemma gcd_loop_zero_r (f : nat) : forall a, 0 < a -> gcd_loop f a 0 = None.
Proof.
  induction f as [| f IH]; intros a Ha; cbn [gcd_loop]; [reflexivity |].
  destruct (Z.eqb_spec a 0); [lia |]; cbn [negb].
  destruct (Z.ltb_spec 0 a); [| lia].
  rewrite Z.sub_0_r; apply IH; exact Ha.
Qed.

Lemma gcd_loop_zero_l (f : nat) : forall a, 0 < a -> gcd_loop f 0 a = None.
Proof.
  induction f as [| f IH]; intros a Ha; cbn [gcd_loop]; [reflexivity |].
  destruct (Z.eqb_spec 0 a); [lia |]; cbn [negb].
  destruct (Z.ltb_spec a 0); [lia |].
  rewrite Z.sub_0_r; apply IH; exact Ha.
Qed.

(** C5 (amended): for [a >= 0] and [modulo >= 2], when [gcd(a, modulo) = 1]
    the search returns an inverse in [[0, modulo)]; otherwise it returns
    the fallback value 1 and no failure is signalled. *)
Theorem inverseModulo_spec (a modulo : Z) (Ha : 0 <= a) (Hm : 2 <= modulo) :
  (Z.gcd a modulo = 1 ->
   0 <= inverseModulo a modulo < modulo /\ (a * inverseModulo a modulo) mod modulo = 1) /\
  (Z.gcd a modulo <> 1 -> inverseModulo a modulo = 1).
Proof.
  unfold inverseModulo.
  rewrite rem_nonneg_mod by lia.
  assert (Hrem : forall j, 0 <= j ->
            Z.rem (a mod modulo * j) modulo = (a * j) mod modulo).
  { intros j Hj.
    rewrite rem_nonneg_mod by
      (try apply Z.mul_nonneg_nonneg; try apply Z.mod_pos_bound; lia).
    apply Z.mul_mod_idemp_l; lia. }
  split.
  - intros Hg.
    set (j0 := Z.invmod a modulo).
    assert (Hj0 : 0 <= j0 < modulo) by (apply Z.mod_pos_bound; lia).
    assert (Hinv : (a * j0) mod modulo = 1).
    { rewrite Z.mul_comm; apply Z.invmod_coprime; [lia | exact Hg]. }
    pose proof (inv_loop_found (Z.to_nat modulo) 0 (a mod modulo) modulo j0)
      as [Hr Hr'].
    + rewrite Z2Nat.id; lia.
    + rewrite Hrem by lia; exact Hinv.
    + rewrite Z2Nat.id in Hr by lia.
      split; [lia |].
      rewrite <- Hrem by lia; exact Hr'.
  - intros Hg.
    apply inv_loop_none.
    intros j Hj Hj'.
    rewrite Hrem in Hj' by lia.
    apply Hg, (mod_inverse_coprime a j); lia.
Qed.

Lemma inverseModulo_spec_witness :
  (0 <= 3 /\ 2 <= 7) /\
  ((Z.gcd 3 7 = 1 ->
    0 <= inverseModulo 3 7 < 7 /\ (3 * inverseModulo 3 7) mod 7 = 1) /\
   (Z.gcd 3 7 <> 1 -> inverseModulo 3 7 = 1)).
Proof. split; [lia | apply (inverseModulo_spec 3 7); lia]. Defined.

(** C5 counterexample: [2] has no inverse modulo [4], and the search
    returns the number 1 instead of failing. *)
Lemma inverseModulo_no_inverse_cex :
  Z.gcd 2 4 <> 1 /\ inverseModulo 2 4 = 1 /\ (2 * 1) mod 4 <> 1.
Proof. vm_compute; repeat split; discriminate. Qed.

(** C9 (amended): on positive operands the subtraction loop stops with the
    greatest common divisor, hence is symmetric; with one operand zero and
    the other positive it never stops. *)
Theorem gcd_subtraction_spec (a b : Z) (Ha : 0 < a) (Hb : 0 < b) :
  gcd a b = Some (Z.gcd a b) /\ gcd b a = Some (Z.gcd a b) /\
  (forall fuel, gcd_loop fuel a 0 = None /\ gcd_loop fuel 0 a = None).
Proof.
  split; [apply gcd_pos; lia |].
  split; [rewrite Z.gcd_comm; apply gcd_pos; lia |].
  intros fuel; split; [apply gcd_loop_zero_r | apply gcd_loop_zero_l]; lia.
Qed.

Lemma gcd_subtraction_spec_witness :
  (0 < 12 /\ 0 < 18) /\
  (gcd 12 18 = Some (Z.gcd 12 18) /\ gcd 18 12 = Some (Z.gcd 12 18) /\
   (forall fuel, gcd_loop fuel 12 0 = None /\ gcd_loop fuel 0 12 = None)).
Proof. split; [lia | apply (gcd_subtraction_spec 12 18); lia]. Defined.

(** C9 counterexample: [gcd(5, 0)] never returns, however many iterations
    are allowed. *)
Lemma gcd_zero_diverges_cex : ~ exists fuel, gcd_loop fuel 5 0 = Some 5.
Proof. intros [fuel H]; rewrite gcd_loop_zero_r in H by lia; discriminate. Qed.

(** ** The giant-step table *)

Section GiantTable.
Variables (alpha n modulo : Z).

Lemma build_table_keeps (k : nat) : forall t kk w,
  t kk = Some w -> exists v, build_table k alpha n modulo t kk = Some v.
Proof.
  induction k as [| k IH]; intros t kk w Ht; cbn [build_table]; [eauto |].
  unfold table_set at 1.
  destruct (Z.eqb_spec kk (giant_key alpha n modulo (Z.of_nat (S k)))) as [E | E].
  - apply (IH _ kk (Z.of_nat (S k))); unfold table_set.
    now rewrite E, Z.eqb_refl.
  - apply (IH _ kk w); unfold table_set.
    apply Z.eqb_neq in E; now rewrite E.
Qed.

(** Every stored index is in range and carries its own key, unless it was
    already in the initial table. *)
Lemma build_table_some (k : nat) : forall t kk v,
  build_table k alpha n modulo t kk = Some v ->
  t kk = Some v \/ (1 <= v <= Z.of_nat k /\ giant_key alpha n modulo v = kk).
Proof.
  induction k as [| k IH]; intros t kk v H; cbn [build_table] in H; [now left |].
  destruct (IH _ _ _ H) as [Ht | [Hv Hk]]; [| right; lia].
  unfold table_set in Ht.
  destruct (Z.eqb_spec kk (giant_key alpha n modulo (Z.of_nat (S k)))) as [E | E].
  - injection Ht as <-; right; split; [lia | symmetry; exact E].
  - left; exact Ht.
Qed.

(** The table maps a key to the lowest index carrying it: the descending
    loop lets the writes of lower indices overwrite higher ones. *)
Lemma build_table_lowest (k : nat) : forall t kk i,
  1 <= i <= Z.of_nat k -> giant_key alpha n modulo i = kk ->
  exists v, build_table k alpha n modulo t kk = Some v /\
            1 <= v <= i /\ giant_key alpha n modulo v = kk.
Proof.
  induction k as [| k IH]; intros t kk i Hi Hk; [lia |]; cbn [build_table].
  set (t' := table_set t (giant_key alpha n modulo (Z.of_nat (S k))) (Z.of_nat (S k))).
  destruct (Z.eq_dec i (Z.of_nat (S k))) as [-> | Hne].
  - assert (Ht' : t' kk = Some (Z.of_nat (S k))).
    { unfold t', table_set; subst kk; now rewrite Z.eqb_refl. }
    destruct (build_table_keeps k t' kk _ Ht') as [v Hv].
    exists v; split; [exact Hv |].
    destruct (build_table_some k t' kk v Hv) as [Hv' | [Hr Hkv]].
    + rewrite Ht' in Hv'; injection Hv' as <-; split; [lia | exact Hk].
    + split; [lia | exact Hkv].
  - apply (IH t' kk i); [lia | exact Hk].
Qed.

End GiantTable.

Lemma dl_n_pos (p : Z) : 1 <= dl_n p.
Proof. unfold dl_n; pose proof (Z.sqrt_nonneg p); lia. Qed.

Lemma giant_table_some (alpha p kk v : Z) :
  giant_table alpha p kk = Some v ->
  1 <= v <= dl_n p /\ giant_key alpha (dl_n p) p v = kk.
Proof.
  unfold giant_table; intros H.
  destruct (build_table_some _ _ _ _ _ _ _ H) as [H' | H']; [discriminate |].
  rewrite Z2Nat.id in H' by (pose proof (dl_n_pos p); lia); exact H'.
Qed.

Lemma giant_table_lowest_index (alpha p i : Z) :
  1 <= i <= dl_n p ->
  exists v, giant_table alpha p (giant_key alpha (dl_n p) p i) = Some v /\
            1 <= v <= i /\
            giant_key alpha (dl_n p) p v = giant_key alpha (dl_n p) p i.
Proof.
  intros Hi; unfold giant_table.
  apply build_table_lowest; [rewrite Z2Nat.id by lia; lia | reflexivity].
Qed.

(** ** The baby-step scan *)

Lemma baby_scan_spec (cnt : nat) : forall i t alpha beta n modulo,
  let r := baby_scan cnt i t alpha beta n modulo in
  r = -1 \/
  exists j v, i <= j < i + Z.of_nat cnt /\
    t (baby_key alpha beta modulo j) = Some v /\ 0 < v /\
    r = v * n - j /\ r < modulo.
Proof.
  induction cnt as [| cnt IH]; intros i t alpha beta n modulo r; subst r;
    cbn [baby_scan]; [now left |].
  destruct (IH (i + 1) t alpha beta n modulo) as [H | (j & v & Hj & H)];
    [| right].
  - destruct (t (baby_key alpha beta modulo i)) as [v |] eqn:Et;
      [| now left].
    destruct (Z.ltb_spec 0 v); [| now left].
    destruct (Z.ltb_spec (v * n - i) modulo); [| now left].
    right; exists i, v; repeat split; lia || assumption.
  - destruct (t (baby_key alpha beta modulo i)) as [v' |] eqn:Et;
      [| exists j, v; split; [lia | exact H]].
    destruct (Z.ltb_spec 0 v'); [| exists j, v; split; [lia | exact H]].
    destruct (Z.ltb_spec (v' * n - i) modulo);
      [| exists j, v; split; [lia | exact H]].
    exists i, v'; repeat split; lia || assumption.
Qed.

(** If some index of the scan passes both tests, the scan stops at the
    first such index. *)
Lemma baby_scan_finds (cnt : nat) : forall i t alpha beta n modulo j0 v0,
  i <= j0 < i + Z.of_nat cnt ->
  t (baby_key alpha beta modulo j0) = Some v0 -> 0 < v0 -> v0 * n - j0 < modulo ->
  exists j v, i <= j <= j0 /\
    t (baby_key alpha beta modulo j) = Some v /\ 0 < v /\
    baby_scan cnt i t alpha beta n modulo = v * n - j /\ v * n - j < modulo.
Proof.
  induction cnt as [| cnt IH]; intros i t alpha beta n modulo j0 v0 Hj Ht Hv Hlt;
    [lia |]; cbn [baby_scan].
  destruct (Z.eq_dec j0 i) as [-> | Hne].
  - rewrite Ht, (proj2 (Z.ltb_lt _ _) Hv), (proj2 (Z.ltb_lt _ _) Hlt).
    exists i, v0; repeat split; lia || assumption.
  - assert (Hrec : exists j v, i + 1 <= j <= j0 /\
              t (baby_key alpha beta modulo j) = Some v /\ 0 < v /\
              baby_scan cnt (i + 1) t alpha beta n modulo = v * n - j /\
              v * n - j < modulo)
      by (apply (IH _ _ _ _ _ _ j0 v0); lia || assumption).
    destruct Hrec as (j & v & Hj' & Hrest).
    destruct (t (baby_key alpha beta modulo i)) as [v' |] eqn:Et;
      [| exists j, v; split; [lia | exact Hrest]].
    destruct (Z.ltb_spec 0 v'); [| exists j, v; split; [lia | exact Hrest]].
    destruct (Z.ltb_spec (v' * n - i) modulo);
      [| exists j, v; split; [lia | exact Hrest]].
    exists i, v'; repeat split; lia || assumption.
Qed.

(** ** Arithmetic modulo [p] *)

Lemma mod_eq_of_sub (x y p : Z) : 0 < p -> (x - y) mod p = 0 -> x mod p = y mod p.
Proof.
  intros Hp H; apply Z.mod_divide in H; [| lia].
  destruct H as [q Hq]; replace x with (y + q * p) by lia.
  apply Z.mod_add; lia.
Qed.

Lemma mod_mul_cancel_l (c x y p : Z) :
  0 < p -> Z.gcd c p = 1 -> (c * x) mod p = (c * y) mod p -> x mod p = y mod p.
Proof.
  intros Hp Hc H; apply mod_eq_of_sub; [exact Hp |].
  apply (Z.cong_mul_cancel_r_coprime _ c); [lia | exact Hc |].
  rewrite Z.mul_sub_distr_r, Zminus_mod, (Z.mul_comm x), (Z.mul_comm y), H.
  rewrite Z.sub_diag; apply Z.mod_0_l; lia.
Qed.

Lemma baby_key_mod (alpha beta p j : Z) :
  0 <= alpha -> 0 <= beta -> 0 <= j -> 1 < p ->
  baby_key alpha beta p j = (alpha ^ j * beta) mod p.
Proof.
  intros; unfold baby_key.
  rewrite fme_mod0 by lia.
  rewrite rem_nonneg_mod by
    (try apply Z.mul_nonneg_nonneg; try apply Z.mod_pos_bound; lia).
  apply Z.mul_mod_idemp_l; lia.
Qed.

(** An answer [v * n - j] read off the table solves [alpha^r = beta]. *)
Lemma dl_answer_sound (alpha beta p j v : Z) :
  1 < p -> 1 <= alpha -> Z.gcd alpha p = 1 -> 0 <= beta ->
  0 <= j < dl_n p ->
  giant_table alpha p (baby_key alpha beta p j) = Some v ->
  alpha ^ (v * dl_n p - j) mod p = beta mod p /\ 1 <= v * dl_n p - j.
Proof.
  intros Hp Ha Hg Hb Hj Ht.
  destruct (giant_table_some _ _ _ _ Ht) as [Hv Hk].
  assert (Hr : 1 <= v * dl_n p - j) by nia.
  split; [| exact Hr].
  unfold giant_key in Hk; rewrite fme_mod in Hk by nia.
  rewrite baby_key_mod in Hk by lia.
  apply (mod_mul_cancel_l (alpha ^ j)); [lia | |].
  - apply Z.coprime_pow_l; [lia | exact Hg].
  - rewrite <- Z.pow_add_r by lia.
    replace (j + (v * dl_n p - j)) with (v * dl_n p) by ring.
    exact Hk.
Qed.

Lemma range_all_spec (f : Z -> bool) (cnt : nat) : forall lo,
  range_all f lo cnt = true -> forall z, lo <= z < lo + Z.of_nat cnt -> f z = true.
Proof.
  induction cnt as [| cnt IH]; intros lo H z Hz; [lia |].
  cbn [range_all] in H; apply andb_prop in H as [H1 H2].
  destruct (Z.eq_dec z lo) as [-> | Hne]; [exact H1 |].
  apply (IH (lo + 1)); [exact H2 | lia].
Qed.

Lemma prime_by_trial (p : Z) :
  1 < p -> range_all (fun d => negb (p mod d =? 0)) 2 (Z.to_nat (p - 2)) = true ->
  Z.prime p.
Proof.
  intros Hp H; split; [exact Hp |].
  intros d Hd Hdiv.
  apply Z.mod_divide in Hdiv; [| lia].
  pose proof (range_all_spec _ _ _ H d ltac:(rewrite Z2Nat.id; lia)) as Hd'.
  cbv beta in Hd'; rewrite Hdiv in Hd'; discriminate.
Qed.

(** [alpha] has order [p - 1] modulo [p]: no smaller positive power is 1. *)
Lemma order_by_trial (alpha p : Z) :
  2 <= p -> range_all (fun k => negb (alpha ^ k mod p =? 1)) 1 (Z.to_nat (p - 2)) = true ->
  forall k, 0 < k < p - 1 -> alpha ^ k mod p <> 1.
Proof.
  intros Hp H k Hk Heq.
  pose proof (range_all_spec _ _ _ H k ltac:(rewrite Z2Nat.id; lia)) as Hk'.
  cbv beta in Hk'; rewrite Heq in Hk'; discriminate.
Qed.

Lemma prime_7 : Z.prime 7.
Proof. apply prime_by_trial; [lia | reflexivity]. Qed.

Lemma prime_11 : Z.prime 11.
Proof. apply prime_by_trial; [lia | reflexivity]. Qed.

Lemma prime_13 : Z.prime 13.
Proof. apply prime_by_trial; [lia | reflexivity]. Qed.

(** Distinct exponents in [[1, p-1]] of an element of order [p - 1] give
    distinct residues. *)
Lemma pow_mod_injective (alpha p a b : Z) :
  1 < p -> 0 <= alpha -> Z.gcd alpha p = 1 ->
  (forall k, 0 < k < p - 1 -> alpha ^ k mod p <> 1) ->
  1 <= a <= p - 1 -> 1 <= b <= p - 1 ->
  alpha ^ a mod p = alpha ^ b mod p -> a = b.
Proof.
  intros Hp Ha Hg Hord.
  assert (Hlt : forall a b, 1 <= a < b -> b <= p - 1 ->
                 alpha ^ a mod p = alpha ^ b mod p -> False).
  { intros a' b' Hab Hb Heq.
    replace b' with (a' + (b' - a')) in Heq by ring.
    rewrite Z.pow_add_r in Heq by lia.
    rewrite <- (Z.mul_1_r (alpha ^ a')) in Heq at 1.
    apply mod_mul_cancel_l in Heq;
      [| lia | apply Z.coprime_pow_l; [lia | exact Hg]].
    rewrite Z.mod_1_l in Heq by lia.
    apply (Hord (b' - a')); [lia | symmetry; exact Heq]. }
  intros Ha' Hb' Heq.
  destruct (Z.lt_total a b) as [H | [H | H]]; [| exact H |].
  - exfalso; apply (Hlt a b); lia || exact Heq.
  - exfalso; apply (Hlt b a); [lia | lia | symmetry; exact Heq].
Qed.

(** ** Claims about discreteLogarithm *)

(** C10: for a prime [p], [1 <= alpha < p] coprime to [p] and
    [0 <= beta < p], any answer [r <> -1] satisfies [alpha^r mod p = beta]
    and lies in [[1, p)]; in particular it is never 0. *)
Theorem discreteLogarithm_sound (alpha beta p r : Z)
  (Hp : Z.prime p) (Ha : 1 <= alpha < p) (Hg : Z.gcd alpha p = 1)
  (Hb : 0 <= beta < p)
  (Hr : discreteLogarithm alpha beta p = r) (Hr1 : r <> -1) :
  alpha ^ r mod p = beta /\ 1 <= r < p /\ r <> 0.
Proof.
  destruct Hp as [Hp _].
  unfold discreteLogarithm in Hr.
  destruct (baby_scan_spec (Z.to_nat (dl_n p)) 0 (giant_table alpha p)
              alpha beta (dl_n p) p) as [H | (j & v & Hj & Ht & Hv & Hre & Hlt)];
    rewrite Hr in *; [contradiction |].
  rewrite Z2Nat.id in Hj by (pose proof (dl_n_pos p); lia).
  destruct (dl_answer_sound alpha beta p j v) as [Hpow Hpos]; try lia; [exact Ht |].
  rewrite Hre, Hpow, Z.mod_small by lia.
  repeat split; lia.
Qed.

Lemma discreteLogarithm_sound_witness :
  (Z.prime 11 /\ 1 <= 2 < 11 /\ Z.gcd 2 11 = 1 /\ 0 <= 7 < 11 /\
   discreteLogarithm 2 7 11 = 7 /\ 7 <> -1) /\
  (2 ^ 7 mod 11 = 7 /\ 1 <= 7 < 11 /\ 7 <> 0).
Proof.
  split.
  - split; [exact prime_11 | repeat split; reflexivity || lia].
  - apply (discreteLogarithm_sound 2 7 11 7 prime_11);
      reflexivity || lia.
Defined.

(** C8 (amended): the table entry of a giant-step key is the lowest index
    in [[1, n]] with that key: the loop runs from [n] down to [1], so on a
    collision the lower index overwrites the higher one. *)
Theorem giant_table_lowest_wins (alpha p i1 : Z)
  (Hi : 1 <= i1 <= dl_n p)
  (Hlow : forall i, 1 <= i < i1 ->
          giant_key alpha (dl_n p) p i <> giant_key alpha (dl_n p) p i1) :
  giant_table alpha p (giant_key alpha (dl_n p) p i1) = Some i1.
Proof.
  destruct (giant_table_lowest_index alpha p i1 Hi) as (v & Hv & Hr & Hk).
  destruct (Z.eq_dec v i1) as [<- | Hne]; [exact Hv |].
  exfalso; apply (Hlow v); [lia | exact Hk].
Qed.

Lemma giant_table_lowest_wins_witness :
  (1 <= 1 <= dl_n 13 /\
   (forall i, 1 <= i < 1 -> giant_key 2 (dl_n 13) 13 i <> giant_key 2 (dl_n 13) 13 1)) /\
  giant_table 2 13 (giant_key 2 (dl_n 13) 13 1) = Some 1.
Proof.
  split.
  - split; [vm_compute; split; discriminate | intros i Hi; lia].
  - apply (giant_table_lowest_wins 2 13 1);
      [vm_compute; split; discriminate | intros i Hi; lia].
Defined.

(** C8 counterexample: with [p = 13], [alpha = 2] ([n = 4]) the indices 1
    and 4 share the key 3; the table stores 1, not the higher index 4. *)
Lemma giant_table_collision_cex :
  dl_n 13 = 4 /\ giant_key 2 4 13 1 = 3 /\ giant_key 2 4 13 4 = 3 /\
  giant_table 2 13 3 = Some 1.
Proof. vm_compute; repeat split. Qed.

(** C2 (amended): for a prime [p] and [alpha] of order [p - 1] (a
    generator), [discreteLogarithm] recovers every exponent [x] in
    [[1, p-1]] from [alpha^x mod p]. *)
Theorem discreteLogarithm_roundtrip (alpha p x : Z)
  (Hp : Z.prime p) (Ha : 1 < alpha < p)
  (Hord : forall k, 0 < k < p - 1 -> alpha ^ k mod p <> 1)
  (Hx : 1 <= x <= p - 1) :
  discreteLogarithm alpha (fastModularExponentiation alpha x p) p = x.
Proof.
  assert (Hg : Z.gcd alpha p = 1).
  { rewrite Z.gcd_comm; apply Z.coprime_prime_small; [exact Hp | lia]. }
  destruct Hp as [Hp _].
  set (beta := fastModularExponentiation alpha x p).
  assert (Hbeta : beta = alpha ^ x mod p) by (apply fme_mod; lia).
  assert (Hbr : 0 <= beta < p) by (rewrite Hbeta; apply Z.mod_pos_bound; lia).
  set (n := dl_n p).
  assert (Hn : 1 <= n) by apply dl_n_pos.
  assert (Hsq : p < n * n).
  { unfold n, dl_n; destruct (Z.sqrt_spec p) as [_ H]; [lia |].
    rewrite <- Z.add_1_r in H; exact H. }
  set (q := (x - 1) / n).
  pose proof (Z.div_mod (x - 1) n ltac:(lia)) as Hqr.
  pose proof (Z.mod_pos_bound (x - 1) n ltac:(lia)) as Hrr.
  fold q in Hqr.
  assert (Hq0 : 0 <= q) by (apply Z.div_pos; lia).
  assert (Hqn : q < n) by nia.
  set (i0 := q + 1).
  set (j0 := i0 * n - x).
  assert (Hj0 : 0 <= j0 < n) by (unfold j0, i0; nia).
  assert (Hkey : baby_key alpha beta p j0 = giant_key alpha n p i0).
  { rewrite baby_key_mod by lia.
    unfold giant_key; rewrite fme_mod by nia.
    rewrite Hbeta, Z.mul_mod_idemp_r, <- Z.pow_add_r by lia.
    f_equal; f_equal; unfold j0; ring. }
  destruct (giant_table_lowest_index alpha p i0) as (v & Hv & Hvr & _);
    [unfold i0; fold n; lia |].
  fold n in Hv; rewrite <- Hkey in Hv.
  unfold discreteLogarithm; fold n.
  destruct (baby_scan_finds (Z.to_nat n) 0 (giant_table alpha p) alpha beta n p j0 v)
    as (j & v' & Hj & Ht & Hv' & Hscan & Hlt);
    [rewrite Z2Nat.id; lia | exact Hv | lia | unfold j0; nia |].
  rewrite Hscan.
  destruct (dl_answer_sound alpha beta p j v') as [Hpow Hpos];
    [lia | lia | exact Hg | lia | fold n; lia | exact Ht |].
  fold n in Hpow, Hpos.
  apply (pow_mod_injective alpha p); try lia; [exact Hord |].
  rewrite Hpow, Z.mod_small, Hbeta by lia; reflexivity.
Qed.

Lemma discreteLogarithm_roundtrip_witness :
  (Z.prime 11 /\ 1 < 2 < 11 /\
   (forall k, 0 < k < 11 - 1 -> 2 ^ k mod 11 <> 1) /\ 1 <= 7 <= 11 - 1) /\
  discreteLogarithm 2 (fastModularExponentiation 2 7 11) 11 = 7.
Proof.
  assert (Hord : forall k, 0 < k < 11 - 1 -> 2 ^ k mod 11 <> 1)
    by (apply order_by_trial; [lia | reflexivity]).
  split.
  - split; [exact prime_11 | split; [lia | split; [exact Hord | lia]]].
  - apply (discreteLogarithm_roundtrip 2 11 7 prime_11); [lia | exact Hord | lia].
Defined.

(** C2 counterexample: [x = 0] comes back as [p - 1] (the scan only yields
    answers [i*n - j >= 1]), and for an [alpha] that is not a generator
    ([2] has order 3 modulo 7) the exponent 4 comes back as 1. *)
Lemma discreteLogarithm_roundtrip_cex :
  (Z.prime 11 /\ 1 < 2 < 11 /\ 0 <= 0 < 11 - 1 /\
   discreteLogarithm 2 (fastModularExponentiation 2 0 11) 11 = 10) /\
  (Z.prime 7 /\ 1 < 2 < 7 /\ 0 <= 4 < 7 - 1 /\
   discreteLogarithm 2 (fastModularExponentiation 2 4 7) 7 = 1).
Proof.
  split; (split; [first [exact prime_11 | exact prime_7] |
                  split; [lia | split; [lia | vm_compute; reflexivity]]]).
Qed.

(** ** The candidate search of calculateK *)

Lemma k_search_S (c : nat) (i k kt modulo2 alpha modulo signature1 : Z) :
  k_search (S c) i k kt modulo2 alpha modulo signature1 =
  if fastModularExponentiation alpha (kt + i * modulo2) modulo =? signature1
  then kt + i * modulo2
  else k_search c (i + 1) (kt + i * modulo2) kt modulo2 alpha modulo signature1.
Proof. reflexivity. Qed.

Section NonceSearch.
Variables (kt modulo2 alpha modulo signature1 : Z).

(** A search over [cnt + 1] candidates from index [i] returns the first
    passing candidate, or the last candidate when none passes. *)
Lemma k_search_spec (cnt : nat) : forall i k,
  let r := k_search (S cnt) i k kt modulo2 alpha modulo signature1 in
  (exists i', i <= i' <= i + Z.of_nat cnt /\ r = kt + i' * modulo2 /\ fastModularExponentiation alpha r modulo = signature1 /\
     forall i'', i <= i'' < i' -> fastModularExponentiation alpha (kt + i'' * modulo2) modulo <> signature1) \/
  ((forall i', i <= i' <= i + Z.of_nat cnt -> fastModularExponentiation alpha (kt + i' * modulo2) modulo <> signature1) /\
   r = kt + (i + Z.of_nat cnt) * modulo2).
Proof.
  induction cnt as [| cnt IH]; intros i k; cbv zeta; rewrite k_search_S.
  - destruct (Z.eqb_spec (fastModularExponentiation alpha (kt + i * modulo2) modulo)
                signature1) as [E | E].
    + left; exists i; repeat split; [lia | lia | exact E | intros; lia].
    + right; split; [intros i' Hi'; replace i' with i by lia; exact E | cbn [k_search Z.of_nat]; now rewrite Z.add_0_r].
  - destruct (Z.eqb_spec (fastModularExponentiation alpha (kt + i * modulo2) modulo)
                signature1) as [E | E].
    + left; exists i; repeat split; [lia | lia | exact E | intros; lia].
    + destruct (IH (i + 1) (kt + i * modulo2)) as
        [(i' & Hi' & Hr & Hp & Hbefore) | [Hnone Hr]].
      * left; exists i'; repeat split; [lia | lia | exact Hr | exact Hp |].
        intros i'' Hi''.
        destruct (Z.eq_dec i'' i) as [-> | Hne]; [exact E | apply Hbefore; lia].
      * right; split.
        -- intros i' Hi'.
           destruct (Z.eq_dec i' i) as [-> | Hne]; [exact E | apply Hnone; lia].
        -- rewrite Hr; f_equal; lia.
Qed.

End NonceSearch.

(** C4 (amended): when [c = gcd(s2, p-1)] is not 1, [calculateK] tries
    the [c] candidates [kt + i*modulo2], [i = 1 .. c] in increasing order,
    and returns the first one with [alpha^k mod p = s1]; when none passes it
    returns the last candidate [kt + c*modulo2] and signals no failure. *)
Theorem calculateK_noncoprime (alpha beta p m s1 s2 x aux c : Z)
  (Hs2 : 1 <= s2) (Hp : 3 <= p)
  (Haux : calculateK_aux p m s1 x = Some aux)
  (Hc : gcd s2 (p - 1) = Some c) (Hc1 : c <> 1) :
  let modulo2 := (p - 1) / c in
  let kt := calculateK_kt p s2 aux c in
  exists k, calculateK alpha beta p m s1 s2 x = Some k /\
    ((exists i, 1 <= i <= c /\ k = kt + i * modulo2 /\
        fastModularExponentiation alpha k p = s1 /\
        forall i', 1 <= i' < i -> fastModularExponentiation alpha (kt + i' * modulo2) p <> s1) \/
     ((forall i, 1 <= i <= c -> fastModularExponentiation alpha (kt + i * modulo2) p <> s1) /\
      k = kt + c * modulo2)).
Proof.
  intros modulo2 kt.
  assert (Hcg : c = Z.gcd s2 (p - 1)).
  { rewrite gcd_pos in Hc by lia; injection Hc as <-; reflexivity. }
  assert (Hc2 : 2 <= c).
  { pose proof (Z.gcd_nonneg s2 (p - 1)).
    assert (Z.gcd s2 (p - 1) <> 0) by (rewrite Z.gcd_eq_0; lia).
    lia. }
  unfold calculateK; rewrite Haux, Hc.
  destruct (Z.eqb_spec c 1) as [| _]; [contradiction |].
  replace (Z.to_nat c) with (S (Z.to_nat (c - 1))) by
    (rewrite <- Z2Nat.inj_succ by lia; f_equal; lia).
  exists (k_search (S (Z.to_nat (c - 1))) 1 0 kt modulo2 alpha p s1).
  split; [reflexivity |].
  destruct (k_search_spec kt modulo2 alpha p s1 (Z.to_nat (c - 1)) 1 0)
    as [(i & Hi & Hr & Hpass & Hbefore) | [Hnone Hr]];
    rewrite Z2Nat.id in * by lia.
  - left; exists i; repeat split; [lia | lia | exact Hr | exact Hpass | exact Hbefore].
  - right; split; [intros i Hi; apply Hnone; lia |].
    rewrite Hr; f_equal; f_equal; lia.
Qed.

Lemma calculateK_noncoprime_witness :
  (1 <= 2 /\ 3 <= 13 /\ calculateK_aux 13 11 3 5 = Some 8 /\
   gcd 2 (13 - 1) = Some 2 /\ 2 <> 1) /\
  exists k, calculateK 2 6 13 11 3 2 5 = Some k /\
    ((exists i, 1 <= i <= 2 /\ k = calculateK_kt 13 2 8 2 + i * ((13 - 1) / 2) /\
        fastModularExponentiation 2 k 13 = 3 /\
        forall i', 1 <= i' < i ->
          fastModularExponentiation 2 (calculateK_kt 13 2 8 2 + i' * ((13 - 1) / 2)) 13 <> 3) \/
     ((forall i, 1 <= i <= 2 ->
         fastModularExponentiation 2 (calculateK_kt 13 2 8 2 + i * ((13 - 1) / 2)) 13 <> 3) /\
      k = calculateK_kt 13 2 8 2 + 2 * ((13 - 1) / 2))).
Proof.
  split.
  - repeat split; try lia; reflexivity.
  - apply (calculateK_noncoprime 2 6 13 11 3 2 5 8 2); [lia | lia | reflexivity | reflexivity | lia].
Defined.

(** C4 counterexample: [p = 7], [alpha = 3], [s1 = 0], [s2 = 2] ([c = 2]):
    neither candidate [3] nor [6] passes ([3^k mod 7 <> 0]), and the call
    still returns the unverified candidate [6]. *)
Lemma calculateK_unverified_cex :
  gcd 2 (7 - 1) = Some 2 /\
  calculateK_kt 7 2 1 2 = 0 /\
  fastModularExponentiation 3 3 7 <> 0 /\ fastModularExponentiation 3 6 7 <> 0 /\
  calculateK 3 3 7 1 0 2 1 = Some 6.
Proof. vm_compute; repeat split; discriminate. Qed.

(** * Further properties of the code *)

(** ** fastModularExponentiation with any sign *)

Lemma rem_pow_idemp (y m : Z) (Hm : m <> 0) : forall e, 0 <= e ->
  Z.rem (Z.rem y m ^ e) m = Z.rem (y ^ e) m.
Proof.
  apply Wf_Z.natlike_ind; [reflexivity |].
  intros e He IH.
  rewrite !Z.pow_succ_r by lia.
  rewrite <- Z.mul_rem_idemp_r, IH, Z.mul_rem_idemp_r by exact Hm.
  rewrite Z.mul_rem_idemp_l by exact Hm; reflexivity.
Qed.

Lemma fme_loop_rem (e : positive) : forall r x m,
  m <> 0 -> fme_loop e r x m = Z.rem (r * x ^ Zpos e) m.
Proof.
  induction e as [e IH | e IH | ]; intros r x m Hm; cbn [fme_loop].
  - rewrite IH by exact Hm.
    rewrite Z.mul_rem_idemp_l, <- Z.mul_rem_idemp_r, rem_pow_idemp,
      Z.mul_rem_idemp_r by (exact Hm || lia).
    replace (Zpos e~1) with (1 + 2 * Zpos e) by lia.
    rewrite Z.pow_add_r, Z.pow_mul_r, Z.pow_1_r by lia.
    f_equal; rewrite Z.pow_2_r; ring.
  - rewrite IH by exact Hm.
    rewrite <- Z.mul_rem_idemp_r, rem_pow_idemp, Z.mul_rem_idemp_r
      by (exact Hm || lia).
    replace (Zpos e~0) with (2 * Zpos e) by lia.
    rewrite Z.pow_mul_r, Z.pow_2_r by lia; reflexivity.
  - rewrite Z.pow_1_r; reflexivity.
Qed.

Lemma fme_rem (b e m : Z) :
  m <> 0 -> 0 < e -> fastModularExponentiation b e m = Z.rem (b ^ e) m.
Proof.
  intros Hm He; unfold fastModularExponentiation.
  destruct e as [| e | e]; try lia.
  rewrite fme_loop_rem by exact Hm.
  rewrite Z.mul_1_l, rem_pow_idemp by (exact Hm || lia); reflexivity.
Qed.

(** X1: for a positive exponent and any base, [fastModularExponentiation]
    is the JavaScript remainder of [base ^ exponent], which keeps the sign
    of the power: an odd power of a negative base gives a result in
    [(-modulo, 0]]. *)
Theorem fme_truncated_remainder (b e m : Z) (Hm : 1 <= m) (He : 1 <= e) :
  fastModularExponentiation b e m = Z.rem (b ^ e) m /\
  (b ^ e < 0 -> - m < fastModularExponentiation b e m <= 0).
Proof.
  rewrite fme_rem by lia.
  split; [reflexivity |].
  intros Hneg; split.
  - pose proof (Z.rem_bound_abs (b ^ e) m ltac:(lia)) as Hb.
    rewrite (Z.abs_eq m) in Hb by lia.
    pose proof (Z.abs_nonneg (Z.rem (b ^ e) m)).
    destruct (Z.abs_spec (Z.rem (b ^ e) m)) as [[_ Habs] | [_ Habs]]; lia.
  - apply Z.rem_nonpos; lia.
Qed.

Lemma fme_truncated_remainder_witness :
  (1 <= 7 /\ 1 <= 3) /\
  (fastModularExponentiation (-2) 3 7 = Z.rem ((-2) ^ 3) 7 /\
   ((-2) ^ 3 < 0 -> - 7 < fastModularExponentiation (-2) 3 7 <= 0)).
Proof. split; [lia | apply (fme_truncated_remainder (-2) 3 7); lia]. Defined.

(** ** negativeModulo *)

Lemma nm_loop_reach (m v t : Z) (Hm : 1 <= m) : forall fuel i,
  i < m -> t <= i -> m * t < v ->
  (forall j, t < j <= i -> v <= m * j) ->
  i - t < Z.of_nat fuel ->
  nm_loop fuel i v m = Some t.
Proof.
  induction fuel as [| fuel IH]; intros i Hi Ht Hmt Hbetween Hfuel; [lia |].
  cbn [nm_loop].
  destruct (Z.ltb_spec i m); [| lia].
  destruct (Z.ltb_spec (m * i) v).
  - destruct (Z.eq_dec i t) as [-> | Hne]; [reflexivity |].
    specialize (Hbetween i ltac:(lia)); lia.
  - assert (i <> t) by (intros ->; lia).
    apply IH; try lia.
    intros j Hj; apply Hbetween; lia.
Qed.

Lemma negativeModulo_eq (v m : Z) (Hm : 1 <= m) :
  negativeModulo v m =
  Some (if v <? 0 then (if v mod m =? 0 then m else v mod m) else m + v).
Proof.
  unfold negativeModulo.
  destruct (Z.ltb_spec v 0) as [Hv | Hv].
  - pose proof (Z.div_mod v m ltac:(lia)) as Hd.
    pose proof (Z.mod_pos_bound v m ltac:(lia)) as Hb.
    set (q := v / m) in *; set (s := v mod m) in *.
    assert (Hq : v <= q <= -1) by nia.
    destruct (Z.eqb_spec s 0) as [Hs | Hs].
    + rewrite (nm_loop_reach m v (q - 1) Hm).
      all: try (intros j Hj; nia).
      all: try (rewrite Nat2Z.inj_add, Z2Nat.id by lia; lia).
      all: try (f_equal; lia).
      all: lia.
    + rewrite (nm_loop_reach m v q Hm).
      all: try (intros j Hj; nia).
      all: try (rewrite Nat2Z.inj_add, Z2Nat.id by lia; lia).
      all: try (f_equal; lia).
      all: nia.
  - rewrite (nm_loop_reach m v (-1) Hm); try lia; f_equal; lia.
Qed.

(** X2: for [modulo >= 1], [negativeModulo] always stops.  On a negative
    value it returns the residue [value mod modulo] when that is non-zero
    and [modulo] itself on an exact multiple, so the result is in
    [[1, modulo]]; on a value [>= 0] it returns [modulo + value]. *)
Theorem negativeModulo_result (v m : Z) (Hm : 1 <= m) :
  negativeModulo v m =
  Some (if v <? 0 then (if v mod m =? 0 then m else v mod m) else m + v).
Proof. apply negativeModulo_eq; exact Hm. Qed.

Lemma negativeModulo_result_witness :
  1 <= 5 /\ negativeModulo (-7) 5 = Some (if -7 <? 0 then (if -7 mod 5 =? 0 then 5 else -7 mod 5) else 5 + -7).
Proof. split; [lia | apply (negativeModulo_result (-7) 5); lia]. Defined.

(** ** inverseModulo on a non-positive number *)

(** X4: for [a <= 0] and [modulo >= 1], [a % modulo] is [<= 0], no product
    with it leaves remainder 1, and [inverseModulo] returns its fallback 1
    even when an inverse exists (e.g. [-3 * 2 = -6 = 1 mod 7]). *)
Theorem inverseModulo_nonpos (a m : Z) (Ha : a <= 0) (Hm : 1 <= m) :
  inverseModulo a m = 1.
Proof.
  unfold inverseModulo; apply inv_loop_none.
  intros j Hj.
  assert (Hr : Z.rem a m <= 0) by (apply Z.rem_nonpos; lia).
  assert (Z.rem (Z.rem a m * j) m <= 0) by (apply Z.rem_nonpos; nia).
  lia.
Qed.

Lemma inverseModulo_nonpos_witness :
  (-3 <= 0 /\ 1 <= 7) /\ inverseModulo (-3) 7 = 1.
Proof. split; [lia | apply (inverseModulo_nonpos (-3) 7); lia]. Defined.

(** ** When the subtraction gcd stops *)

Lemma gcd_loop_stuck (fuel : nat) : forall a b,
  a <> b -> (a <= 0 \/ b <= 0) -> gcd_loop fuel a b = None.
Proof.
  induction fuel as [| fuel IH]; intros a b Hab Hs; cbn [gcd_loop]; [reflexivity |].
  destruct (Z.eqb_spec a b); [contradiction |]; cbn [negb].
  destruct (Z.ltb_spec b a); apply IH; lia.
Qed.

(** X5: the subtraction loop of [gcd] stops (for some number of
    iterations) exactly when the operands are equal or both positive; in
    every other case (a zero or negative operand different from the other)
    it runs forever. *)
Theorem gcd_loop_stops_iff (a b : Z) :
  (exists fuel r, gcd_loop fuel a b = Some r) <-> (a = b \/ (0 < a /\ 0 < b)).
Proof.
  split.
  - intros (fuel & r & H).
    destruct (Z.eq_dec a b) as [| Hne]; [now left |].
    destruct (Z.lt_total 0 a) as [Ha | Ha]; destruct (Z.lt_total 0 b) as [Hb | Hb];
      try (right; lia);
      rewrite gcd_loop_stuck in H by lia; discriminate.
  - intros [<- | [Ha Hb]].
    + exists 1%nat, a; cbn; now rewrite Z.eqb_refl.
    + exists (Z.to_nat (Z.abs a + Z.abs b) + 1)%nat, (Z.gcd a b).
      apply gcd_pos; lia.
Qed.

(** ** inverseModulo returns the least inverse *)

Lemma inv_loop_cases (cnt : nat) : forall i a m,
  (forall j, i <= j < i + Z.of_nat cnt -> Z.rem (a * j) m <> 1) \/
  (i <= inv_loop cnt i a m < i + Z.of_nat cnt /\
   Z.rem (a * inv_loop cnt i a m) m = 1 /\
   forall j, i <= j < inv_loop cnt i a m -> Z.rem (a * j) m <> 1).
Proof.
  induction cnt as [| cnt IH]; intros i a m; cbn [inv_loop]; [left; lia |].
  destruct (Z.eqb_spec (Z.rem (a * i) m) 1) as [E | E].
  - right; repeat split; [lia | lia | exact E | intros; lia].
  - destruct (IH (i + 1) a m) as [Hn | (Hr & Hr1 & Hbefore)].
    + left; intros j Hj.
      destruct (Z.eq_dec j i) as [-> | Hne]; [exact E | apply Hn; lia].
    + right; repeat split; [lia | lia | exact Hr1 |].
      intros j Hj.
      destruct (Z.eq_dec j i) as [-> | Hne]; [exact E | apply Hbefore; lia].
Qed.

Lemma inverseModulo_least_inverse (a m : Z) :
  0 <= a -> 2 <= m -> Z.gcd a m = 1 ->
  0 <= inverseModulo a m < m /\ (a * inverseModulo a m) mod m = 1 /\
  forall j, 0 <= j < inverseModulo a m -> (a * j) mod m <> 1.
Proof.
  intros Ha Hm Hg; unfold inverseModulo.
  rewrite rem_nonneg_mod by lia.
  assert (Hrem : forall j, 0 <= j ->
            Z.rem (a mod m * j) m = (a * j) mod m).
  { intros j Hj.
    rewrite rem_nonneg_mod by
      (try apply Z.mul_nonneg_nonneg; try apply Z.mod_pos_bound; lia).
    apply Z.mul_mod_idemp_l; lia. }
  destruct (inv_loop_cases (Z.to_nat m) 0 (a mod m) m) as [Hn | (Hr & Hr1 & Hbefore)];
    rewrite Z2Nat.id in * by lia.
  - exfalso.
    set (j0 := Z.invmod a m).
    assert (Hj0 : 0 <= j0 < m) by (apply Z.mod_pos_bound; lia).
    apply (Hn j0); [lia |].
    rewrite Hrem by lia; rewrite Z.mul_comm; apply Z.invmod_coprime; [lia | exact Hg].
  - split; [lia |]; split.
    + rewrite <- Hrem by lia; exact Hr1.
    + intros j Hj; rewrite <- Hrem by lia; apply Hbefore; lia.
Qed.

(** X3: for [a >= 0], [modulo >= 2] and [gcd(a, modulo) = 1],
    [inverseModulo] returns the least [b] in [[0, modulo)] with
    [(a * b) mod modulo = 1]. *)
Theorem inverseModulo_least (a m : Z) (Ha : 0 <= a) (Hm : 2 <= m) (Hg : Z.gcd a m = 1) :
  0 <= inverseModulo a m < m /\ (a * inverseModulo a m) mod m = 1 /\
  forall j, 0 <= j < inverseModulo a m -> (a * j) mod m <> 1.
Proof. apply inverseModulo_least_inverse; assumption. Qed.

Lemma inverseModulo_least_witness :
  (0 <= 10 /\ 2 <= 21 /\ Z.gcd 10 21 = 1) /\
  (0 <= inverseModulo 10 21 < 21 /\ (10 * inverseModulo 10 21) mod 21 = 1 /\
   forall j, 0 <= j < inverseModulo 10 21 -> (10 * j) mod 21 <> 1).
Proof.
  split; [split; [lia | split; [lia | reflexivity]] |].
  apply (inverseModulo_least 10 21); [lia | lia | reflexivity].
Defined.

(** ** discreteLogarithm: range, soundness and completeness *)


Lemma dl_answer (alpha beta p : Z) :
  1 < p -> 1 <= alpha -> Z.gcd alpha p = 1 -> 0 <= beta < p ->
  discreteLogarithm alpha beta p <> -1 ->
  1 <= discreteLogarithm alpha beta p < p /\
  alpha ^ discreteLogarithm alpha beta p mod p = beta.
Proof.
  intros Hp Ha Hg Hb Hne.
  unfold discreteLogarithm in *.
  destruct (baby_scan_spec (Z.to_nat (dl_n p)) 0 (giant_table alpha p)
              alpha beta (dl_n p) p) as [H | (j & v & Hj & Ht & Hv & Hre & Hlt)];
    [contradiction |].
  rewrite Z2Nat.id in Hj by (pose proof (dl_n_pos p); lia).
  destruct (dl_answer_sound alpha beta p j v) as [Hpow Hpos]; try lia; [exact Ht |].
  rewrite Hre, Hpow, Z.mod_small by lia; split; lia.
Qed.

Lemma dl_found (alpha p x : Z) :
  1 < p -> 1 <= alpha -> 1 <= x <= p - 1 ->
  discreteLogarithm alpha (alpha ^ x mod p) p <> -1.
Proof.
  intros Hp Ha Hx.
  set (beta := alpha ^ x mod p).
  assert (Hbr : 0 <= beta < p) by (apply Z.mod_pos_bound; lia).
  set (n := dl_n p).
  assert (Hn : 1 <= n) by apply dl_n_pos.
  assert (Hsq : p < n * n).
  { unfold n, dl_n; destruct (Z.sqrt_spec p) as [_ H]; [lia |].
    rewrite <- Z.add_1_r in H; exact H. }
  set (q := (x - 1) / n).
  pose proof (Z.div_mod (x - 1) n ltac:(lia)) as Hqr.
  pose proof (Z.mod_pos_bound (x - 1) n ltac:(lia)) as Hrr.
  fold q in Hqr.
  assert (Hq0 : 0 <= q) by (apply Z.div_pos; lia).
  assert (Hqn : q < n) by nia.
  set (i0 := q + 1).
  set (j0 := i0 * n - x).
  assert (Hj0 : 0 <= j0 < n) by (unfold j0, i0; nia).
  assert (Hkey : baby_key alpha beta p j0 = giant_key alpha n p i0).
  { rewrite baby_key_mod by lia.
    unfold giant_key; rewrite fme_mod by nia.
    unfold beta; rewrite Z.mul_mod_idemp_r, <- Z.pow_add_r by lia.
    f_equal; f_equal; unfold j0; ring. }
  destruct (giant_table_lowest_index alpha p i0) as (v & Hv & Hvr & _);
    [unfold i0; fold n; lia |].
  fold n in Hv; rewrite <- Hkey in Hv.
  unfold discreteLogarithm; fold n.
  destruct (baby_scan_finds (Z.to_nat n) 0 (giant_table alpha p) alpha beta n p j0 v)
    as (j & v' & Hj & Ht & Hv' & Hscan & Hlt);
    [rewrite Z2Nat.id; lia | exact Hv | lia | unfold j0; nia |].
  rewrite Hscan.
  destruct (giant_table_some _ _ _ _ Ht) as [Hvr' _]; fold n in Hvr'.
  nia.
Qed.

(** X7: for [p >= 2], [1 <= alpha] coprime to [p] and [0 <= beta < p],
    [discreteLogarithm] finds an answer (returns something other than
    [-1]) exactly when [beta] is [alpha^r mod p] for some [r] in [[1, p)],
    and then that answer is such an [r]. *)
Theorem discreteLogarithm_found_iff (alpha beta p : Z)
  (Hp : 2 <= p) (Ha : 1 <= alpha) (Hg : Z.gcd alpha p = 1) (Hb : 0 <= beta < p) :
  (discreteLogarithm alpha beta p <> -1 <->
   exists r, 1 <= r < p /\ alpha ^ r mod p = beta) /\
  (discreteLogarithm alpha beta p <> -1 ->
   alpha ^ discreteLogarithm alpha beta p mod p = beta).
Proof.
  split; [split |].
  - intros Hne; exists (discreteLogarithm alpha beta p); apply dl_answer; lia || assumption.
  - intros (r & Hr & <-); apply dl_found; lia.
  - intros Hne; apply dl_answer; lia || assumption.
Qed.

Lemma discreteLogarithm_found_iff_witness :
  (2 <= 9 /\ 1 <= 2 /\ Z.gcd 2 9 = 1 /\ 0 <= 3 < 9) /\
  ((discreteLogarithm 2 3 9 <> -1 <-> exists r, 1 <= r < 9 /\ 2 ^ r mod 9 = 3) /\
   (discreteLogarithm 2 3 9 <> -1 -> 2 ^ discreteLogarithm 2 3 9 mod 9 = 3)).
Proof.
  split; [repeat split; lia || reflexivity |].
  apply (discreteLogarithm_found_iff 2 3 9); lia || reflexivity.
Defined.

(** ** verify accepts genuine signatures *)

Lemma fermat_Z (p a : Z) : Z.prime p -> Z.gcd a p = 1 -> a ^ (p - 1) mod p = 1.
Proof.
  intros Hp Hg.
  pose proof (Z.prime_ge_2 _ Hp) as H2.
  set (z := Zstar.of_Zmod (Zmod.of_Z p a)).
  pose proof (Zstar.fermat z Hp) as F.
  apply (f_equal (fun w => Zmod.to_Z (Zstar.to_Zmod w))) in F.
  rewrite Zstar.to_Zmod_pow in F.
  unfold z in F; rewrite Zstar.to_Zmod_of_Zmod in F.
  2:{ unfold Z.coprime. rewrite Zmod.unsigned_of_Z, Z.gcd_mod_l. exact Hg. }
  rewrite Zmod.unsigned_pow_nonneg_r, Zmod.unsigned_of_Z in F by lia.
  rewrite Z.mod_pow_l in F.
  rewrite <- Z.sub_1_r in F; rewrite F.
  rewrite Zstar.to_Zmod_1, Zmod.unsigned_1; apply Z.mod_1_l; lia.
Qed.

Lemma pow_mod_reduce_exp (alpha p e : Z) :
  Z.prime p -> Z.gcd alpha p = 1 -> 0 <= e ->
  alpha ^ e mod p = alpha ^ (e mod (p - 1)) mod p.
Proof.
  intros Hp Hg He.
  pose proof (Z.prime_ge_2 _ Hp).
  pose proof (Z.div_mod e (p - 1) ltac:(lia)) as Hd.
  pose proof (Z.mod_pos_bound e (p - 1) ltac:(lia)) as Hb.
  assert (Hq : 0 <= e / (p - 1)) by (apply Z.div_pos; lia).
  set (q := e / (p - 1)) in *; set (r := e mod (p - 1)) in *.
  rewrite Hd.
  rewrite Z.pow_add_r, Z.pow_mul_r by nia.
  rewrite Z.mul_mod, <- Z.mod_pow_l, fermat_Z by (assumption || lia).
  rewrite Z.pow_1_l, Z.mod_1_l, Z.mul_1_l, Z.mod_mod by lia.
  reflexivity.
Qed.

Lemma prime_23 : Z.prime 23.
Proof. apply prime_by_trial; [lia | reflexivity]. Qed.

Lemma verify_signed (alpha p x kk m s2 : Z) :
  Z.prime p -> 1 <= alpha < p -> 0 <= x -> 0 <= kk -> 0 <= m -> 0 <= s2 ->
  m mod (p - 1) = (x * (alpha ^ kk mod p) + kk * s2) mod (p - 1) ->
  verify alpha (fastModularExponentiation alpha x p) p m
         (fastModularExponentiation alpha kk p) s2 = true.
Proof.
  intros Hp Ha Hx Hk Hm Hs2 Hsig.
  assert (Hg : Z.gcd alpha p = 1).
  { rewrite Z.gcd_comm; apply Z.coprime_prime_small; [exact Hp | lia]. }
  pose proof (Z.prime_ge_2 _ Hp) as H2.
  rewrite (fme_mod0 alpha x p), (fme_mod0 alpha kk p) by lia.
  set (s1 := alpha ^ kk mod p) in *.
  assert (Hs1 : 0 <= s1 < p) by (apply Z.mod_pos_bound; lia).
  assert (Hb : 0 <= alpha ^ x mod p < p) by (apply Z.mod_pos_bound; lia).
  unfold verify.
  rewrite (fme_mod0 alpha m p), (fme_mod0 (alpha ^ x mod p) s1 p),
    (fme_mod0 s1 s2 p) by lia.
  rewrite fme_mod0 by
    (try apply Z.mul_nonneg_nonneg; try apply Z.mod_pos_bound; lia).
  apply Z.eqb_eq; rewrite Z.pow_1_r.
  rewrite Z.mod_pow_l.
  unfold s1 at 2; rewrite Z.mod_pow_l.
  rewrite <- Z.mul_mod by lia.
  rewrite <- !Z.pow_mul_r, <- Z.pow_add_r by nia.
  rewrite (pow_mod_reduce_exp alpha p m), (pow_mod_reduce_exp alpha p (x * s1 + kk * s2))
    by (assumption || nia).
  rewrite Hsig; reflexivity.
Qed.

(** X8: [verify] accepts every signature made with the ElGamal signing
    equation: for a prime [p], [1 <= alpha < p], secret key [x >= 0] (so
    [beta = alpha^x mod p]), nonce [k >= 0] (so [signature1 = alpha^k mod p])
    and [m, signature2 >= 0] with
    [m = x * signature1 + k * signature2 (mod p - 1)], it returns [true]. *)
Theorem verify_accepts_signature (alpha p x kk m s2 : Z)
  (Hp : Z.prime p) (Ha : 1 <= alpha < p) (Hx : 0 <= x) (Hk : 0 <= kk)
  (Hm : 0 <= m) (Hs2 : 0 <= s2)
  (Hsig : m mod (p - 1) = (x * (alpha ^ kk mod p) + kk * s2) mod (p - 1)) :
  verify alpha (fastModularExponentiation alpha x p) p m
         (fastModularExponentiation alpha kk p) s2 = true.
Proof. apply verify_signed; assumption. Qed.

Lemma verify_accepts_signature_witness :
  (Z.prime 23 /\ 1 <= 5 < 23 /\ 0 <= 6 /\ 0 <= 3 /\ 0 <= 15 /\ 0 <= 7 /\
   15 mod (23 - 1) = (6 * (5 ^ 3 mod 23) + 3 * 7) mod (23 - 1)) /\
  verify 5 (fastModularExponentiation 5 6 23) 23 15
         (fastModularExponentiation 5 3 23) 7 = true.
Proof.
  split; [split; [exact prime_23 | repeat split; lia || reflexivity] |].
  apply (verify_accepts_signature 5 23 6 3 15 7);
    [exact prime_23 | lia | lia | lia | lia | lia | reflexivity].
Defined.

(** ** calculateK when [signature2] is invertible modulo [p - 1] *)

Lemma calculateK_coprime_eq (alpha beta p m s1 s2 x : Z) :
  2 <= p -> 1 <= s2 -> Z.gcd s2 (p - 1) = 1 ->
  calculateK alpha beta p m s1 s2 x =
  Some (Z.rem (inverseModulo s2 (p - 1) * (m - x * s1)) (p - 1)).
Proof.
  intros Hp Hs2 Hg.
  unfold calculateK, calculateK_aux.
  assert (Haux : exists aux,
    (if m - x * s1 <? 0 then negativeModulo (m - x * s1) (p - 1)
     else Some (fastModularExponentiation (m - x * s1) 1 (p - 1))) = Some aux).
  { destruct (m - x * s1 <? 0); [rewrite negativeModulo_eq by lia |]; eexists; reflexivity. }
  destruct Haux as [aux ->].
  rewrite gcd_pos, Hg by lia; cbn [Z.eqb Pos.eqb].
  rewrite fme_rem, Z.pow_1_r by lia; reflexivity.
Qed.

Lemma rem_mul_mod (a c b : Z) : 0 < b -> (Z.rem a b * c) mod b = (a * c) mod b.
Proof.
  intros Hb; rewrite Z.rem_eq by lia.
  replace ((a - b * Z.quot a b) * c) with (a * c + (- Z.quot a b * c) * b) by ring.
  apply Z.mod_add; lia.
Qed.

Lemma calculateK_coprime_solves (alpha beta p m s1 s2 x : Z) :
  3 <= p -> 1 <= s2 -> Z.gcd s2 (p - 1) = 1 ->
  exists k, calculateK alpha beta p m s1 s2 x = Some k /\
    (k * s2) mod (p - 1) = (m - x * s1) mod (p - 1) /\
    -(p - 1) < k < p - 1 /\
    (0 <= m - x * s1 -> 0 <= k) /\ (m - x * s1 <= 0 -> k <= 0).
Proof.
  intros Hp Hs2 Hg.
  rewrite calculateK_coprime_eq by lia.
  eexists; split; [reflexivity |].
  destruct (inverseModulo_least_inverse s2 (p - 1)) as (Hir & Hinv & _); [lia | lia | lia |].
  set (inv := inverseModulo s2 (p - 1)) in *.
  set (d := m - x * s1).
  split; [| split; [| split]].
  - rewrite rem_mul_mod by lia.
    replace (inv * d * s2) with ((s2 * inv) * d) by ring.
    rewrite Z.mul_mod, Hinv, Z.mul_1_l, Z.mod_mod by lia; reflexivity.
  - pose proof (Z.rem_bound_abs (inv * d) (p - 1) ltac:(lia)) as Hb.
    rewrite (Z.abs_eq (p - 1)) in Hb by lia; lia.
  - intros Hd; apply Z.rem_nonneg; nia.
  - intros Hd; apply Z.rem_nonpos; nia.
Qed.

(** X9: when [gcd(signature2, p - 1) = 1] (with [p >= 3] and
    [signature2 >= 1]), [calculateK] returns a [k] solving
    [k * signature2 = m - secretKey * signature1 (mod p - 1)], with
    [|k| < p - 1] and the sign of [m - secretKey * signature1] (zero
    included): a negative difference gives [k <= 0]. *)
Theorem calculateK_coprime_solution (alpha beta p m s1 s2 x : Z)
  (Hp : 3 <= p) (Hs2 : 1 <= s2) (Hg : Z.gcd s2 (p - 1) = 1) :
  exists k, calculateK alpha beta p m s1 s2 x = Some k /\
    (k * s2) mod (p - 1) = (m - x * s1) mod (p - 1) /\
    -(p - 1) < k < p - 1 /\
    (0 <= m - x * s1 -> 0 <= k) /\ (m - x * s1 <= 0 -> k <= 0).
Proof. apply calculateK_coprime_solves; assumption. Qed.

Lemma calculateK_coprime_solution_witness :
  (3 <= 23 /\ 1 <= 7 /\ Z.gcd 7 (23 - 1) = 1) /\
  exists k, calculateK 5 8 23 15 10 7 6 = Some k /\
    (k * 7) mod (23 - 1) = (15 - 6 * 10) mod (23 - 1) /\
    -(23 - 1) < k < 23 - 1 /\
    (0 <= 15 - 6 * 10 -> 0 <= k) /\ (15 - 6 * 10 <= 0 -> k <= 0).
Proof.
  split; [repeat split; lia || reflexivity |].
  apply (calculateK_coprime_solution 5 8 23 15 10 7 6); lia || reflexivity.
Defined.

(** ** run: verification, key recovery and nonce recovery together *)

Lemma calculateK_recovers (alpha beta p m s1 s2 x kk : Z) :
  3 <= p -> 1 <= s2 -> Z.gcd s2 (p - 1) = 1 -> x * s1 <= m -> 0 <= kk ->
  (m - x * s1) mod (p - 1) = (kk * s2) mod (p - 1) ->
  calculateK alpha beta p m s1 s2 x = Some (kk mod (p - 1)).
Proof.
  intros Hp Hs2 Hg Hd Hk Hsig.
  rewrite calculateK_coprime_eq by lia; f_equal.
  destruct (inverseModulo_least_inverse s2 (p - 1)) as (Hir & Hinv & _); [lia | lia | lia |].
  set (inv := inverseModulo s2 (p - 1)) in *.
  rewrite rem_nonneg_mod by nia.
  rewrite Z.mul_mod, Hsig, <- Z.mul_mod by lia.
  replace (inv * (kk * s2)) with (kk * (s2 * inv)) by ring.
  rewrite Z.mul_mod, Hinv, Z.mul_1_r, Z.mod_mod by lia; reflexivity.
Qed.

Lemma dl_recovers (alpha p x : Z) :
  Z.prime p -> 1 < alpha < p ->
  (forall k, 0 < k < p - 1 -> alpha ^ k mod p <> 1) ->
  1 <= x <= p - 1 ->
  discreteLogarithm alpha (fastModularExponentiation alpha x p) p = x.
Proof.
  intros Hp Ha Hord Hx.
  assert (Hg : Z.gcd alpha p = 1).
  { rewrite Z.gcd_comm; apply Z.coprime_prime_small; [exact Hp | lia]. }
  pose proof (Z.prime_ge_2 _ Hp) as H2.
  rewrite fme_mod by lia.
  pose proof (dl_found alpha p x ltac:(lia) ltac:(lia) Hx) as Hne.
  assert (Hb : 0 <= alpha ^ x mod p < p) by (apply Z.mod_pos_bound; lia).
  destruct (dl_answer alpha (alpha ^ x mod p) p) as [Hr Hpow]; try lia; try assumption.
  apply (pow_mod_injective alpha p); try lia; assumption.
Qed.

(** X10: [run] on a genuine signature: for a prime [p >= 3], a generator
    [alpha] of order [p - 1], a secret key [x] in [[1, p-1]], a nonce
    [k >= 0], [signature1 = alpha^k mod p], [signature2 >= 1] coprime to
    [p - 1] and [m >= x * signature1] satisfying the signing equation
    [m = x * signature1 + k * signature2 (mod p - 1)], [run] reports a
    passed verification, recovers the secret key [x] and returns the nonce
    as [k mod (p - 1)]. *)
Theorem run_genuine_signature (alpha p x kk m s2 : Z)
  (Hp : Z.prime p) (Hp3 : 3 <= p) (Ha : 1 < alpha < p)
  (Hord : forall k, 0 < k < p - 1 -> alpha ^ k mod p <> 1)
  (Hx : 1 <= x <= p - 1) (Hk : 0 <= kk) (Hs2 : 1 <= s2)
  (Hg : Z.gcd s2 (p - 1) = 1) (Hm : x * (alpha ^ kk mod p) <= m)
  (Hsig : m mod (p - 1) = (x * (alpha ^ kk mod p) + kk * s2) mod (p - 1)) :
  run alpha (fastModularExponentiation alpha x p) p m
      (fastModularExponentiation alpha kk p) s2 =
  {| isSuccess := true; secretKey := x; k := Some (kk mod (p - 1)) |}.
Proof.
  assert (Hs1 : 0 <= alpha ^ kk mod p < p) by (apply Z.mod_pos_bound; lia).
  unfold run.
  rewrite verify_signed by (assumption || nia).
  rewrite dl_recovers by assumption.
  rewrite (fme_mod0 alpha kk p) by lia.
  assert (Hd : (m - x * (alpha ^ kk mod p)) mod (p - 1) = (kk * s2) mod (p - 1)).
  { rewrite Zminus_mod, Hsig, <- Zminus_mod; f_equal; ring. }
  rewrite (calculateK_recovers _ _ p m (alpha ^ kk mod p) s2 x kk) by (assumption || lia).
  reflexivity.
Qed.

Lemma run_genuine_signature_witness :
  (Z.prime 23 /\ 3 <= 23 /\ 1 < 5 < 23 /\
   (forall k, 0 < k < 23 - 1 -> 5 ^ k mod 23 <> 1) /\
   1 <= 6 <= 23 - 1 /\ 0 <= 3 /\ 1 <= 7 /\ Z.gcd 7 (23 - 1) = 1 /\
   6 * (5 ^ 3 mod 23) <= 81 /\
   81 mod (23 - 1) = (6 * (5 ^ 3 mod 23) + 3 * 7) mod (23 - 1)) /\
  run 5 (fastModularExponentiation 5 6 23) 23 81
      (fastModularExponentiation 5 3 23) 7 =
  {| isSuccess := true; secretKey := 6; k := Some (3 mod (23 - 1)) |}.
Proof.
  assert (Hord : forall k, 0 < k < 23 - 1 -> 5 ^ k mod 23 <> 1)
    by (apply order_by_trial; [lia | reflexivity]).
  split; [split; [exact prime_23 |
                  repeat split; try exact Hord;
                  lia || reflexivity || (vm_compute; discriminate)] |].
  apply (run_genuine_signature 5 23 6 3 81 7);
    [exact prime_23 | lia | lia | exact Hord | lia | lia | lia | reflexivity
    | vm_compute; discriminate | reflexivity].
Defined.

(** ** calculateK never returns when [signature2 <= 0] *)

(** X11: when [signature2 <= 0] and [signature2 <> p - 1], the call
    [gcd(signature2, p - 1)] inside [calculateK] never ends, so
    [calculateK] does not return (the model gives [None]). This holds
    for any other arguments. *)
Theorem calculateK_nonpositive_signature2_diverges (alpha beta p m s1 s2 x : Z)
  (Hs2 : s2 <= 0) (Hne : s2 <> p - 1) :
  calculateK alpha beta p m s1 s2 x = None.
Proof.
  unfold calculateK.
  destruct (calculateK_aux p m s1 x); [| reflexivity].
  unfold gcd; rewrite gcd_loop_stuck by lia; reflexivity.
Qed.

Lemma calculateK_nonpositive_signature2_diverges_witness :
  (0 <= 0 /\ 0 <> 23 - 1) /\ calculateK 5 8 23 15 10 0 6 = None.
Proof.
  split; [lia |].
  apply (calculateK_nonpositive_signature2_diverges 5 8 23 15 10 0 6); lia.
Defined.

(** ** discreteLogarithm only sees [beta mod p] *)

Lemma baby_scan_ext (cnt : nat) : forall i t alpha b1 b2 n p,
  0 <= i -> (forall j, 0 <= j -> baby_key alpha b1 p j = baby_key alpha b2 p j) ->
  baby_scan cnt i t alpha b1 n p = baby_scan cnt i t alpha b2 n p.
Proof.
  induction cnt as [| cnt IH]; intros i t alpha b1 b2 n p Hi Hk; cbn [baby_scan];
    [reflexivity |].
  rewrite (Hk i Hi), !(IH (i + 1) t alpha b1 b2 n p) by (lia || exact Hk).
  reflexivity.
Qed.

(** X12: for [alpha >= 0], [beta >= 0] and [p >= 2], [discreteLogarithm]
    gives the same result for [beta] and for [beta mod p]: an unreduced
    [beta] is handled as its residue. *)
Theorem discreteLogarithm_beta_mod (alpha beta p : Z)
  (Ha : 0 <= alpha) (Hb : 0 <= beta) (Hp : 2 <= p) :
  discreteLogarithm alpha beta p = discreteLogarithm alpha (beta mod p) p.
Proof.
  unfold discreteLogarithm; apply baby_scan_ext; [lia |].
  intros j Hj.
  assert (Hm : 0 <= beta mod p < p) by (apply Z.mod_pos_bound; lia).
  rewrite !baby_key_mod by lia.
  rewrite Z.mul_mod_idemp_r by lia; reflexivity.
Qed.

Lemma discreteLogarithm_beta_mod_witness :
  (0 <= 2 /\ 0 <= 29 /\ 2 <= 11) /\
  discreteLogarithm 2 29 11 = discreteLogarithm 2 (29 mod 11) 11.
Proof.
  split; [lia |].
  apply (discreteLogarithm_beta_mod 2 29 11); lia.
Defined.
